(** * An in-memory key/value store with nested transactions

    Shallow embedding of [main.py]: the store [InMemoryDBClient] (a dict of
    integer values and a [defaultdict(int)] of counts) and the coordinator
    [TransactionsHandler] (a flat transaction log with "BEGIN" markers),
    followed by the properties proved about them. *)

From Equations Require Import Equations.
From Equations.Prop Require Import Logic.
From stdpp Require Import gmap strings list fin_maps.
From Stdlib Require Import ZArith Lia.

Local Open Scope Z_scope.

(** ** Exceptions and outcomes *)

(** The exceptions a call can end with.  The source raises plain
    [Exception]s told apart by their message; [IndexError] is what Python
    raises for [transaction_log[-1]] on an empty list.  [TypeError_None]
    marks the one place where the typed model stops: the rollback loop
    handing [client.set] an [old_value] that is [None], where the signature
    of [set] wants an [int] (Python would store the [None]; the store below
    holds integers only).  The coordinator never builds such an entry. *)
Inductive exn : Type :=
| KeyNotFound (key : string)        (* Exception(f"Key {key} not found") *)
| NoTransactionToCommit             (* Exception("No transaction to commit") *)
| NoTransactionToRollback           (* Exception("No transaction to rollback") *)
| IndexError                        (* list index out of range *)
| TypeError_None.                   (* None passed as an int value *)

(** The two error kinds of the specification. *)
Definition NotFoundError (e : exn) : Prop :=
  match e with KeyNotFound _ => True | _ => False end.
Definition NoActiveTransactionError (e : exn) : Prop :=
  match e with
  | NoTransactionToCommit | NoTransactionToRollback => True
  | _ => False
  end.

(** A call either returns a value or raises; the object it ran on is
    returned next to the outcome, in the state the call left it in. *)
Inductive outcome (A : Type) : Type :=
| Return (a : A)
| Raise (e : exn).
Arguments Return {A} a.
Arguments Raise {A} e.

Definition raised {A} (o : outcome A) : bool :=
  match o with Raise _ => true | Return _ => false end.

(** ** The store *)

Module InMemoryDBClient.

Record t : Type := mk {
  data : gmap string Z;     (* self.data = {} *)
  counts : gmap Z Z         (* self.counts = defaultdict(int) *)
}.

(** [__init__] *)
Definition init : t := mk ∅ ∅.

(** [defaultdict(int).__getitem__]: a missing key is inserted with the
    default [0] before it is returned. *)
Definition counts_getitem (cs : gmap Z Z) (v : Z) : gmap Z Z * Z :=
  match cs !! v with
  | Some n => (cs, n)
  | None => (<[v := 0]> cs, 0)
  end.

(** [counts[v] += d]: a [__getitem__] followed by a [__setitem__]. *)
Definition counts_iadd (cs : gmap Z Z) (v d : Z) : gmap Z Z :=
  let '(cs', n) := counts_getitem cs v in <[v := n + d]> cs'.

Definition get (key : string) (c : t) : option Z :=
  match data c !! key with
  | Some v => Some v
  | None => None
  end.

Definition set (key : string) (value : Z) (c : t) : t :=
  let cs :=
    match data c !! key with
    | Some old => counts_iadd (counts c) old (-1)
    | None => counts c
    end in
  mk (<[key := value]> (data c)) (counts_iadd cs value 1).

Definition delete (key : string) (c : t) : t * outcome unit :=
  match data c !! key with
  | None => (c, Raise (KeyNotFound key))
  | Some old =>
      (mk (base.delete key (data c)) (counts_iadd (counts c) old (-1)),
       Return tt)
  end.

Definition count (value : Z) (c : t) : t * Z :=
  let '(cs, n) := counts_getitem (counts c) value in
  (mk (data c) cs, n).

End InMemoryDBClient.

(** ** Transaction log entries *)

Module TransactionLogEntry.

Record t : Type := mk {
  key : string;
  old_value : option Z;
  new_value : option Z
}.

Definition is_create_operation (e : t) : bool :=
  match old_value e, new_value e with
  | None, Some _ => true
  | _, _ => false
  end.

End TransactionLogEntry.

(** The log is one flat Python list, oldest item first: [Marker] is the
    string "BEGIN" appended by [begin], [Entry] a [TransactionLogEntry]. *)
Inductive log_item : Type :=
| Marker
| Entry (e : TransactionLogEntry.t).

(** [list.pop()]: the last item and the list without it. *)
Definition list_pop {A} (l : list A) : option (A * list A) :=
  match last l with
  | Some x => Some (x, removelast l)
  | None => None
  end.

(** ** The coordinator *)

Module TransactionsHandler.

Record t : Type := mk {
  client : InMemoryDBClient.t;
  transaction_log : list log_item
}.

(** [__init__] *)
Definition init (c : InMemoryDBClient.t) : t := mk c [].

(** Truthiness of the log: true when it is not empty. *)
Definition transaction_active (h : t) : bool :=
  match transaction_log h with
  | [] => false
  | _ :: _ => true
  end.

Definition begin (h : t) : t :=
  mk (client h) (transaction_log h ++ [Marker]).

Definition commit (h : t) : t * outcome unit :=
  if negb (transaction_active h) then (h, Raise NoTransactionToCommit)
  else (mk (client h) [], Return tt).

(** The loop of [__apply_rollback__]; every turn pops one entry, which is
    what the recursion is founded on. *)
Equations? apply_rollback (h : t) : t * outcome unit
  by wf (length (transaction_log h)) lt :=
  apply_rollback h with inspect (last (transaction_log h)) := {
    | exist _ None _ => (h, Raise IndexError)
    | exist _ (Some Marker) _ => (h, Return tt)
    | exist _ (Some (Entry entry)) Hlast
        with inspect (TransactionLogEntry.is_create_operation entry) := {
        | exist _ true _
            with inspect (InMemoryDBClient.delete
                            (TransactionLogEntry.key entry) (client h)) := {
            | exist _ (c, Raise e) _ =>
                (mk c (removelast (transaction_log h)), Raise e)
            | exist _ (c, Return _) _ =>
                apply_rollback (mk c (removelast (transaction_log h))) }
        | exist _ false _
            with inspect (TransactionLogEntry.old_value entry) := {
            | exist _ None _ =>
                (mk (client h) (removelast (transaction_log h)),
                 Raise TypeError_None)
            | exist _ (Some old) _ =>
                apply_rollback
                  (mk (InMemoryDBClient.set
                         (TransactionLogEntry.key entry) old (client h))
                      (removelast (transaction_log h))) } } }.
Proof.
  all: apply last_Some in Hlast as [l' ->];
    rewrite removelast_last, length_app; simpl; lia.
Defined.

Definition rollback (h : t) : t * outcome unit :=
  if negb (transaction_active h) then (h, Raise NoTransactionToRollback)
  else
    let '(h1, r) := apply_rollback h in
    match r with
    | Raise e => (h1, Raise e)
    | Return _ =>
        match list_pop (transaction_log h1) with
        | None => (h1, Raise IndexError)
        | Some (_, log') => (mk (client h1) log', Return tt)
        end
    end.

Definition get (key : string) (h : t) : option Z :=
  InMemoryDBClient.get key (client h).

Definition set (key : string) (value : Z) (h : t) : t :=
  if negb (transaction_active h) then
    mk (InMemoryDBClient.set key value (client h)) (transaction_log h)
  else
    let old_value := InMemoryDBClient.data (client h) !! key in
    let log := transaction_log h
               ++ [Entry (TransactionLogEntry.mk key old_value (Some value))] in
    mk (InMemoryDBClient.set key value (client h)) log.

Definition delete (key : string) (h : t) : t * outcome unit :=
  match InMemoryDBClient.data (client h) !! key with
  | None => (h, Raise (KeyNotFound key))
  | Some old_value =>
      if negb (transaction_active h) then
        let '(c, r) := InMemoryDBClient.delete key (client h) in
        (mk c (transaction_log h), r)
      else
        let log := transaction_log h
                   ++ [Entry (TransactionLogEntry.mk key (Some old_value) None)] in
        let '(c, r) := InMemoryDBClient.delete key (client h) in
        (mk c log, r)
  end.

Definition count (value : Z) (h : t) : t * Z :=
  let '(c, n) := InMemoryDBClient.count value (client h) in
  (mk c (transaction_log h), n).

End TransactionsHandler.

Module DB := InMemoryDBClient.
Module LE := TransactionLogEntry.
Module TH := TransactionsHandler.

(** ** Observations used by the specification *)

(** Reading the count index without touching it: an absent entry counts
    as [0]. *)
Definition count_of (cs : gmap Z Z) (v : Z) : Z := default 0 (cs !! v).

(** The number of keys currently mapped to [v]. *)
Definition keys_with_value (d : gmap string Z) (v : Z) : nat :=
  size (filter (λ kv : string * Z, kv.2 = v) d).

Definition indicator (b : bool) : Z := if b then 1 else 0.

(** The invariant of the data model: the count index agrees with the
    key-to-value mapping at every integer. *)
Definition store_consistent (c : DB.t) : Prop :=
  ∀ v, count_of (DB.counts c) v = Z.of_nat (keys_with_value (DB.data c) v).

(** Two stores are equivalent when they hold the same mapping and every
    count reads the same; explicit [0] entries of the index do not matter. *)
Definition client_equiv (c1 c2 : DB.t) : Prop :=
  DB.data c1 = DB.data c2
  ∧ ∀ v, count_of (DB.counts c1) v = count_of (DB.counts c2) v.

Definition handler_equiv (h1 h2 : TH.t) : Prop :=
  client_equiv (TH.client h1) (TH.client h2)
  ∧ TH.transaction_log h1 = TH.transaction_log h2.

(** ** Commands *)

Inductive command : Type :=
| BEGIN
| COMMIT
| ROLLBACK
| SET (key : string) (value : Z)
| GET (key : string)
| DELETE (key : string)
| COUNT (value : Z).

(** One call on the coordinator; [get] and [count] return a value, the
    others return [None]. *)
Definition exec (cmd : command) (h : TH.t) : TH.t * outcome (option Z) :=
  match cmd with
  | BEGIN => (TH.begin h, Return None)
  | COMMIT =>
      let '(h', r) := TH.commit h in
      (h', match r with Return _ => Return None | Raise e => Raise e end)
  | ROLLBACK =>
      let '(h', r) := TH.rollback h in
      (h', match r with Return _ => Return None | Raise e => Raise e end)
  | SET key value => (TH.set key value h, Return None)
  | GET key => (h, Return (TH.get key h))
  | DELETE key =>
      let '(h', r) := TH.delete key h in
      (h', match r with Return _ => Return None | Raise e => Raise e end)
  | COUNT value =>
      let '(h', n) := TH.count value h in (h', Return (Some n))
  end.

(** A driver issuing calls one after the other; a call that raises leaves
    the coordinator as the exception found it and the driver goes on. *)
Definition run (cmds : list command) (h : TH.t) : TH.t :=
  foldl (λ h cmd, fst (exec cmd h)) h cmds.

(** A fresh coordinator over a fresh store. *)
Definition initial : TH.t := TH.init DB.init.

(** The mutations of the interface. *)
Inductive mutation : Type :=
| MSet (key : string) (value : Z)
| MDelete (key : string).

Definition mutation_command (m : mutation) : command :=
  match m with
  | MSet key value => SET key value
  | MDelete key => DELETE key
  end.

Definition run_mutations (ms : list mutation) (h : TH.t) : TH.t :=
  run (mutation_command <$> ms) h.

(** ** Undoing entries *)

(** The body of the rollback loop for one popped entry. *)
Definition undo_entry (e : LE.t) (c : DB.t) : DB.t * outcome unit :=
  if LE.is_create_operation e then DB.delete (LE.key e) c
  else
    match LE.old_value e with
    | Some old => (DB.set (LE.key e) old c, Return tt)
    | None => (c, Raise TypeError_None)
    end.

(** Undoing a sequence of entries in the order given, stopping at the
    first failure. *)
Fixpoint replay (es : list LE.t) (c : DB.t) : DB.t * outcome unit :=
  match es with
  | [] => (c, Return tt)
  | e :: es' =>
      match undo_entry e c with
      | (c', Return _) => replay es' c'
      | (c', Raise x) => (c', Raise x)
      end
  end.

(** What undoing [e] does to the key-to-value mapping; [None] when the
    undo would raise. *)
Definition undo_data (e : LE.t) (d : gmap string Z) : option (gmap string Z) :=
  if LE.is_create_operation e then
    match d !! LE.key e with
    | Some _ => Some (base.delete (LE.key e) d)
    | None => None
    end
  else
    match LE.old_value e with
    | Some old => Some (<[LE.key e := old]> d)
    | None => None
    end.

(** A log, read from its end, can be undone all the way down from mapping
    [d] without an undo ever failing. *)
Fixpoint undoable_from_top (stack : list log_item) (d : gmap string Z) : Prop :=
  match stack with
  | [] => True
  | Marker :: stack' => undoable_from_top stack' d
  | Entry e :: stack' =>
      match undo_data e d with
      | Some d' => undoable_from_top stack' d'
      | None => False
      end
  end.

Definition undoable (log : list log_item) (d : gmap string Z) : Prop :=
  undoable_from_top (rev log) d.

(** The shape of the flat log: empty, or starting with a marker. *)
Definition log_shape (log : list log_item) : Prop :=
  match log with
  | [] | Marker :: _ => True
  | Entry _ :: _ => False
  end.

Definition is_marker (i : log_item) : bool :=
  match i with Marker => true | Entry _ => false end.

(** Number of open transaction scopes: the markers in the log. *)
Definition depth (h : TH.t) : nat :=
  length (filter (λ i, is_marker i = true) (TH.transaction_log h)).

(** [N] nested scopes, each opened by [begin] and followed by its
    mutations. *)
Definition nest (frames : list (list mutation)) (h : TH.t) : TH.t :=
  foldl (λ h ms, run_mutations ms (TH.begin h)) h frames.

(** [n] calls of [rollback] in a row. *)
Fixpoint rollbacks (n : nat) (h : TH.t) : TH.t :=
  match n with
  | O => h
  | S n' => rollbacks n' (fst (TH.rollback h))
  end.

(** Along a replay, every creation entry finds its key in the store when
    its turn to be undone comes. *)
Fixpoint creations_present (es : list LE.t) (c : DB.t) : Prop :=
  match es with
  | [] => True
  | e :: es' =>
      (LE.is_create_operation e = true → is_Some (DB.data c !! LE.key e))
      ∧ creations_present es' (undo_entry e c).1
  end.

(** What holds in every state the coordinator can be in: the count index
    agrees with the mapping, the log is empty or starts with a marker, and
    the log can be undone entry by entry without a failing undo. *)
Definition invariant (h : TH.t) : Prop :=
  store_consistent (TH.client h)
  ∧ log_shape (TH.transaction_log h)
  ∧ undoable (TH.transaction_log h) (DB.data (TH.client h)).

(** ** Further observations *)

(** The sum of all the counts of the index. *)
Definition total_count (cs : gmap Z Z) : Z :=
  map_fold (λ _ n acc, n + acc) 0 cs.

(** The counts of the index add up to the number of keys. *)
Definition counts_add_up (c : DB.t) : Prop :=
  total_count (DB.counts c) = Z.of_nat (size (DB.data c)).

(** What one call does to the store when it is not a rollback: the call
    on the store the coordinator makes for it. *)
Definition store_effect (cmd : command) (c : DB.t) : DB.t :=
  match cmd with
  | SET key value => DB.set key value c
  | DELETE key => (DB.delete key c).1
  | COUNT value => (DB.count value c).1
  | BEGIN | COMMIT | ROLLBACK | GET _ => c
  end.

(** The entries of a log, markers dropped. *)
Definition entries_of (log : list log_item) : list LE.t :=
  omap (λ i, match i with Entry e => Some e | Marker => None end) log.

(** The number of markers of a log. *)
Definition markers (log : list log_item) : nat :=
  length (filter (λ i, is_marker i = true) log).

(** An entry as [set] and [delete] build them: it has a before-value or an
    after-value. *)
Definition entry_recorded (i : log_item) : Prop :=
  match i with
  | Marker => True
  | Entry e => is_Some (LE.old_value e) ∨ is_Some (LE.new_value e)
  end.

(** Scopes opened and closed by a sequence of calls that starts at nesting
    depth [d]: [None] when a [rollback] has no [begin] to match in the
    sequence or when the sequence commits, else the depth at its end. *)
Fixpoint nesting (d : nat) (cmds : list command) : option nat :=
  match cmds with
  | [] => Some d
  | BEGIN :: cmds' => nesting (S d) cmds'
  | ROLLBACK :: cmds' =>
      match d with
      | O => None
      | S d' => nesting d' cmds'
      end
  | COMMIT :: _ => None
  | _ :: cmds' => nesting d cmds'
  end.

(** Undoing all the entries of the log part [s], last one first, from the
    store [c] never fails and ends in a store equivalent to [c0]. *)
Definition undoes (s : list log_item) (c c0 : DB.t) : Prop :=
  ∃ c', replay (rev (entries_of s)) c = (c', Return tt) ∧ client_equiv c' c0.

(** * Properties *)

(** ** The rollback loop, one turn at a time *)

Lemma apply_rollback_nil c :
  TH.apply_rollback (TH.mk c []) = (TH.mk c [], Raise IndexError).
Proof. reflexivity. Qed.

Lemma apply_rollback_marker c l :
  TH.apply_rollback (TH.mk c (l ++ [Marker]))
  = (TH.mk c (l ++ [Marker]), Return tt).
Proof.
  rewrite TH.apply_rollback_unfold_eq. unfold TH.apply_rollback_unfold.
  cbn [TH.transaction_log TH.client].
  destruct (inspect (last (l ++ [Marker]))) as [o Ho].
  pose proof Ho as Ho'. rewrite last_snoc in Ho'.
  destruct o as [[|e']|]; try discriminate. reflexivity.
Qed.

Lemma apply_rollback_entry c l e :
  TH.apply_rollback (TH.mk c (l ++ [Entry e])) =
  match undo_entry e c with
  | (c', Return _) => TH.apply_rollback (TH.mk c' l)
  | (c', Raise x) => (TH.mk c' l, Raise x)
  end.
Proof.
  rewrite TH.apply_rollback_unfold_eq. unfold TH.apply_rollback_unfold, undo_entry.
  cbn [TH.transaction_log TH.client].
  destruct (inspect (last (l ++ [Entry e]))) as [o Ho].
  pose proof Ho as Ho'. rewrite last_snoc in Ho'.
  destruct o as [[|e']|]; try discriminate.
  assert (e' = e) by congruence. subst e'. clear Ho'.
  cbn [TH.apply_rollback_unfold_clause_1].
  destruct (inspect (LE.is_create_operation e)) as [[] Hb];
    cbn [TH.apply_rollback_unfold_clause_1_clause_3].
  - destruct (inspect (DB.delete (LE.key e) c)) as [[c' []] Hr];
      cbn; rewrite Hb, Hr, removelast_last; reflexivity.
  - destruct (inspect (LE.old_value e)) as [[] Hold];
      cbn; rewrite Hb, Hold, removelast_last; reflexivity.
Qed.

(** ** The count index *)

Lemma count_of_iadd cs v d w :
  count_of (DB.counts_iadd cs v d) w
  = count_of cs w + (if decide (w = v) then d else 0).
Proof.
  unfold DB.counts_iadd, DB.counts_getitem, count_of.
  destruct (cs !! v) as [n|] eqn:Hv; case_decide as Hw; subst;
    rewrite ?insert_insert_eq, ?lookup_insert_eq, ?lookup_insert_ne, ?Hv
      by congruence; simpl; lia.
Qed.

Lemma count_of_getitem cs v w :
  count_of (DB.counts_getitem cs v).1 w = count_of cs w
  ∧ (DB.counts_getitem cs v).2 = count_of cs v.
Proof.
  unfold DB.counts_getitem, count_of.
  destruct (cs !! v) as [n|] eqn:Hv; simpl; [done|].
  split; [|done].
  destruct (decide (w = v)) as [->|Hne].
  - by rewrite lookup_insert_eq, Hv.
  - by rewrite lookup_insert_ne.
Qed.

Lemma map_size_delete_S {A} (m : gmap string A) k x :
  m !! k = Some x → size m = S (size (base.delete k m)).
Proof.
  intros Hk. rewrite <- (insert_id m k x) at 1 by done.
  rewrite <- insert_delete_eq.
  apply map_size_insert_None, lookup_delete_eq.
Qed.

Lemma keys_with_value_delete d k w :
  Z.of_nat (keys_with_value (base.delete k d) w)
  = Z.of_nat (keys_with_value d w)
    - indicator (bool_decide (d !! k = Some w)).
Proof.
  unfold keys_with_value. rewrite map_filter_delete.
  destruct (filter (λ kv : string * Z, kv.2 = w) d !! k) as [x|] eqn:Hk.
  - rewrite (map_size_delete_S _ k x Hk).
    apply map_lookup_filter_Some in Hk as [Hk Hx]. simpl in Hx. subst x.
    rewrite bool_decide_eq_true_2 by done. simpl. lia.
  - rewrite delete_id by done.
    rewrite bool_decide_eq_false_2; [simpl; lia|].
    intros Hd. rewrite map_lookup_filter_None in Hk.
    destruct Hk as [Hk|Hk]; [congruence|]. by apply (Hk w).
Qed.

Lemma keys_with_value_insert d k v w :
  Z.of_nat (keys_with_value (<[k := v]> d) w)
  = Z.of_nat (keys_with_value d w)
    - indicator (bool_decide (d !! k = Some w))
    + indicator (bool_decide (v = w)).
Proof.
  rewrite <- keys_with_value_delete.
  rewrite <- (insert_delete_eq d). unfold keys_with_value.
  rewrite map_filter_insert. simpl. case_decide as Hv.
  - rewrite map_size_insert_None, bool_decide_eq_true_2 by
      (done || (rewrite map_lookup_filter_None; left; apply lookup_delete_eq)).
    simpl. lia.
  - rewrite delete_delete_eq, bool_decide_eq_false_2 by done. simpl. lia.
Qed.

Lemma count_of_set c k v w :
  count_of (DB.counts (DB.set k v c)) w
  = count_of (DB.counts c) w
    - indicator (bool_decide (DB.data c !! k = Some w))
    + indicator (bool_decide (v = w)).
Proof.
  unfold DB.set. simpl. rewrite count_of_iadd.
  destruct (DB.data c !! k) as [old|] eqn:Hk.
  - rewrite count_of_iadd.
    repeat case_decide; repeat case_bool_decide; simpl; congruence || lia.
  - repeat case_decide; repeat case_bool_decide; simpl; congruence || lia.
Qed.

Lemma data_set c k v : DB.data (DB.set k v c) = <[k := v]> (DB.data c).
Proof. reflexivity. Qed.

Lemma delete_Some c k old :
  DB.data c !! k = Some old →
  DB.delete k c
  = (DB.mk (base.delete k (DB.data c)) (DB.counts_iadd (DB.counts c) old (-1)),
     Return tt).
Proof. intros Hk. unfold DB.delete. by rewrite Hk. Qed.

Lemma delete_None c k :
  DB.data c !! k = None → DB.delete k c = (c, Raise (KeyNotFound k)).
Proof. intros Hk. unfold DB.delete. by rewrite Hk. Qed.

Lemma count_of_delete c k old w :
  DB.data c !! k = Some old →
  count_of (DB.counts (DB.delete k c).1) w
  = count_of (DB.counts c) w
    - indicator (bool_decide (DB.data c !! k = Some w)).
Proof.
  intros Hk. rewrite (delete_Some _ _ _ Hk). simpl. rewrite count_of_iadd, Hk.
  case_decide; case_bool_decide; simpl; congruence || lia.
Qed.

Lemma set_consistent c k v :
  store_consistent c → store_consistent (DB.set k v c).
Proof.
  intros Hc w. rewrite count_of_set, data_set, keys_with_value_insert, Hc.
  done.
Qed.

Lemma delete_consistent c k :
  store_consistent c → store_consistent (DB.delete k c).1.
Proof.
  intros Hc w. destruct (DB.data c !! k) as [old|] eqn:Hk.
  - rewrite (count_of_delete _ _ _ _ Hk).
    rewrite (delete_Some _ _ _ Hk). simpl.
    rewrite keys_with_value_delete, Hc. done.
  - rewrite (delete_None _ _ Hk). apply Hc.
Qed.

Lemma init_consistent : store_consistent DB.init.
Proof. intros v. reflexivity. Qed.

(** ** Equivalent stores behave alike *)

#[local] Instance client_equiv_equivalence : Equivalence client_equiv.
Proof.
  split.
  - intros c. by split.
  - intros c1 c2 [Hd Hc]. split; [done|]. intros v. by rewrite Hc.
  - intros c1 c2 c3 [Hd1 Hc1] [Hd2 Hc2]. split; [congruence|].
    intros v. by rewrite Hc1, Hc2.
Qed.

#[local] Instance handler_equiv_equivalence : Equivalence handler_equiv.
Proof.
  split.
  - intros h. by split.
  - intros h1 h2 [Hc Hl]. by split.
  - intros h1 h2 h3 [Hc1 Hl1] [Hc2 Hl2]. split; [by etrans|congruence].
Qed.

Lemma set_equiv c1 c2 k v :
  client_equiv c1 c2 → client_equiv (DB.set k v c1) (DB.set k v c2).
Proof.
  intros [Hd Hc]. split.
  - by rewrite !data_set, Hd.
  - intros w. by rewrite !count_of_set, Hd, Hc.
Qed.

Lemma delete_equiv c1 c2 k :
  client_equiv c1 c2 →
  client_equiv (DB.delete k c1).1 (DB.delete k c2).1
  ∧ (DB.delete k c1).2 = (DB.delete k c2).2.
Proof.
  intros [Hd Hc]. destruct (DB.data c1 !! k) as [old|] eqn:Hk.
  - assert (Hk2 : DB.data c2 !! k = Some old) by congruence.
    split; [split|].
    + rewrite (delete_Some _ _ _ Hk), (delete_Some _ _ _ Hk2). simpl.
      by rewrite Hd.
    + intros w.
      rewrite (count_of_delete _ _ _ _ Hk), (count_of_delete _ _ _ _ Hk2).
      by rewrite Hd, Hc.
    + by rewrite (delete_Some _ _ _ Hk), (delete_Some _ _ _ Hk2).
  - assert (Hk2 : DB.data c2 !! k = None) by congruence.
    rewrite (delete_None _ _ Hk), (delete_None _ _ Hk2). by repeat split.
Qed.

Lemma undo_entry_equiv e c1 c2 :
  client_equiv c1 c2 →
  client_equiv (undo_entry e c1).1 (undo_entry e c2).1
  ∧ (undo_entry e c1).2 = (undo_entry e c2).2.
Proof.
  intros Hc. unfold undo_entry.
  destruct (LE.is_create_operation e); [by apply delete_equiv|].
  destruct (LE.old_value e) as [old|]; simpl; [|done].
  split; [by apply set_equiv|done].
Qed.

Lemma replay_equiv es c1 c2 :
  client_equiv c1 c2 →
  client_equiv (replay es c1).1 (replay es c2).1
  ∧ (replay es c1).2 = (replay es c2).2.
Proof.
  revert c1 c2. induction es as [|e es IH]; intros c1 c2 Hc; simpl; [done|].
  destruct (undo_entry_equiv e c1 c2 Hc) as [Hc' Hr].
  destruct (undo_entry e c1) as [c1' r1], (undo_entry e c2) as [c2' r2].
  simpl in *. subst r2. destruct r1; [by apply IH|done].
Qed.

Lemma replay_app es1 es2 c :
  replay (es1 ++ es2) c =
  match replay es1 c with
  | (c', Return _) => replay es2 c'
  | (c', Raise x) => (c', Raise x)
  end.
Proof.
  revert c. induction es1 as [|e es1 IH]; intros c; simpl; [done|].
  destruct (undo_entry e c) as [c' []]; [apply IH|done].
Qed.

Lemma apply_rollback_equiv l c1 c2 :
  client_equiv c1 c2 →
  handler_equiv (TH.apply_rollback (TH.mk c1 l)).1
                (TH.apply_rollback (TH.mk c2 l)).1
  ∧ (TH.apply_rollback (TH.mk c1 l)).2 = (TH.apply_rollback (TH.mk c2 l)).2.
Proof.
  revert c1 c2. induction l as [|x l IH] using rev_ind; intros c1 c2 Hc.
  - rewrite !apply_rollback_nil. split; [by split|done].
  - destruct x as [|e].
    + rewrite !apply_rollback_marker. split; [by split|done].
    + rewrite !apply_rollback_entry.
      destruct (undo_entry_equiv e c1 c2 Hc) as [Hc' Hr].
      destruct (undo_entry e c1) as [c1' r1], (undo_entry e c2) as [c2' r2].
      simpl in *. subst r2. destruct r1; [by apply IH|split; [by split|done]].
Qed.

Lemma rollback_equiv h1 h2 :
  handler_equiv h1 h2 →
  handler_equiv (TH.rollback h1).1 (TH.rollback h2).1
  ∧ (TH.rollback h1).2 = (TH.rollback h2).2.
Proof.
  destruct h1 as [c1 l1], h2 as [c2 l2]. intros [Hc Hl]. simpl in *. subst l2.
  unfold TH.rollback, TH.transaction_active. simpl.
  destruct l1 as [|x l1]; simpl; [split; [by split|done]|].
  destruct (apply_rollback_equiv (x :: l1) c1 c2 Hc) as [[Hc' Hl'] Hr].
  destruct (TH.apply_rollback (TH.mk c1 (x :: l1))) as [[c1' l1'] r1].
  destruct (TH.apply_rollback (TH.mk c2 (x :: l1))) as [[c2' l2'] r2].
  simpl in *. subst l2' r2. destruct r1; [|split; [by split|done]].
  destruct (list_pop l1') as [[? ?]|]; (split; [by split|done]).
Qed.

Lemma rollbacks_equiv n h1 h2 :
  handler_equiv h1 h2 → handler_equiv (rollbacks n h1) (rollbacks n h2).
Proof.
  revert h1 h2. induction n as [|n IH]; intros h1 h2 Hh; simpl; [done|].
  apply IH. by apply rollback_equiv.
Qed.

(** ** Undoing one recorded mutation *)

Lemma set_undo c k v :
  ∃ c', undo_entry (LE.mk k (DB.data c !! k) (Some v)) (DB.set k v c)
        = (c', Return tt)
        ∧ client_equiv c' c.
Proof.
  unfold undo_entry, LE.is_create_operation. simpl.
  destruct (DB.data c !! k) as [old|] eqn:Hk.
  - eexists. split; [done|]. split.
    + rewrite !data_set, insert_insert_eq. by apply insert_id.
    + intros w. rewrite !count_of_set, data_set, lookup_insert_eq, Hk.
      repeat case_bool_decide; simpl; congruence || lia.
  - assert (Hs : DB.data (DB.set k v c) !! k = Some v)
      by (rewrite data_set; apply lookup_insert_eq).
    rewrite (delete_Some _ _ _ Hs). eexists. split; [done|]. split.
    + simpl. by apply delete_insert_id.
    + intros w. cbn [DB.counts]. rewrite count_of_iadd, count_of_set, Hk.
      case_decide; repeat case_bool_decide; simpl; congruence || lia.
Qed.

Lemma delete_undo c k old :
  DB.data c !! k = Some old →
  ∃ c', undo_entry (LE.mk k (Some old) None) (DB.delete k c).1
        = (c', Return tt)
        ∧ client_equiv c' c.
Proof.
  intros Hk. unfold undo_entry, LE.is_create_operation. simpl.
  eexists. split; [done|]. rewrite (delete_Some _ _ _ Hk). split.
  - rewrite data_set. simpl. by apply insert_delete_id.
  - intros w. rewrite count_of_set. cbn [DB.counts DB.data fst].
    rewrite lookup_delete_eq, count_of_iadd.
    case_decide; repeat case_bool_decide; simpl; congruence || lia.
Qed.

(** ** Rolling back the innermost frame *)

Lemma transaction_active_true h :
  TH.transaction_active h = true ↔ TH.transaction_log h ≠ [].
Proof. unfold TH.transaction_active. by destruct (TH.transaction_log h). Qed.

Lemma transaction_active_snoc c l x :
  TH.transaction_active (TH.mk c (l ++ [x])) = true.
Proof. apply transaction_active_true. simpl. by destruct l. Qed.

Lemma list_pop_snoc {A} (l : list A) x : list_pop (l ++ [x]) = Some (x, l).
Proof. unfold list_pop. by rewrite last_snoc, removelast_last. Qed.

Lemma apply_rollback_frame pre es c c' :
  replay (rev es) c = (c', Return tt) →
  TH.apply_rollback (TH.mk c (pre ++ Marker :: (Entry <$> es)))
  = (TH.mk c' (pre ++ [Marker]), Return tt).
Proof.
  revert c. induction es as [|e es IH] using rev_ind; intros c Hr.
  - simpl in Hr. injection Hr as ->. apply apply_rollback_marker.
  - rewrite rev_unit in Hr. simpl in Hr.
    rewrite fmap_app. simpl.
    replace (pre ++ Marker :: (Entry <$> es) ++ [Entry e])
      with ((pre ++ Marker :: (Entry <$> es)) ++ [Entry e])
      by (by rewrite <- app_assoc).
    rewrite apply_rollback_entry.
    destruct (undo_entry e c) as [c1 []]; [by apply IH|done].
Qed.

Lemma rollback_frame pre es c c' :
  replay (rev es) c = (c', Return tt) →
  TH.rollback (TH.mk c (pre ++ Marker :: (Entry <$> es)))
  = (TH.mk c' pre, Return tt).
Proof.
  intros Hr. unfold TH.rollback.
  replace (TH.transaction_active _) with true
    by (symmetry; apply transaction_active_true; simpl; by destruct pre).
  simpl. rewrite (apply_rollback_frame _ _ _ _ Hr). simpl.
  by rewrite list_pop_snoc.
Qed.

Lemma run_app cmds1 cmds2 h : run (cmds1 ++ cmds2) h = run cmds2 (run cmds1 h).
Proof. apply foldl_app. Qed.

Lemma run_cons cmd cmds h : run (cmd :: cmds) h = run cmds (exec cmd h).1.
Proof. reflexivity. Qed.

(** Inside a transaction a mutation appends at most one entry, and undoing
    what it appended gives back an equivalent store. *)
Lemma mutation_recorded m h :
  TH.transaction_active h = true →
  ∃ es c',
    TH.transaction_log (exec (mutation_command m) h).1
    = TH.transaction_log h ++ (Entry <$> es)
    ∧ replay (rev es) (TH.client (exec (mutation_command m) h).1)
      = (c', Return tt)
    ∧ client_equiv c' (TH.client h).
Proof.
  intros Hact. destruct m as [k v|k]; simpl.
  - unfold TH.set. rewrite Hact. simpl.
    destruct (set_undo (TH.client h) k v) as (c' & Hu & Hc).
    exists [LE.mk k (DB.data (TH.client h) !! k) (Some v)], c'.
    simpl. by rewrite Hu.
  - unfold TH.delete. destruct (DB.data (TH.client h) !! k) as [old|] eqn:Hk.
    + rewrite Hact. simpl.
      destruct (delete_undo (TH.client h) k old Hk) as (c' & Hu & Hc).
      destruct (DB.delete k (TH.client h)) as [c1 r1]. simpl in *.
      exists [LE.mk k (Some old) None], c'.
      split; [done|split; [|done]]. cbn [rev app replay]. by rewrite Hu.
    + exists [], (TH.client h). simpl. by rewrite app_nil_r.
Qed.

Lemma run_mutations_recorded ms h :
  TH.transaction_active h = true →
  ∃ es c',
    TH.transaction_log (run_mutations ms h)
    = TH.transaction_log h ++ (Entry <$> es)
    ∧ replay (rev es) (TH.client (run_mutations ms h)) = (c', Return tt)
    ∧ client_equiv c' (TH.client h).
Proof.
  revert h. induction ms as [|m ms IH]; intros h Hact.
  - exists [], (TH.client h). simpl. by rewrite app_nil_r.
  - unfold run_mutations. rewrite fmap_cons, run_cons.
    destruct (mutation_recorded m h Hact) as (es1 & c1 & Hl1 & Hr1 & Hc1).
    set (h1 := (exec (mutation_command m) h).1) in *.
    assert (Hact1 : TH.transaction_active h1 = true).
    { apply transaction_active_true. rewrite Hl1.
      apply transaction_active_true in Hact.
      by destruct (TH.transaction_log h). }
    destruct (IH h1 Hact1) as (es2 & c2 & Hl2 & Hr2 & Hc2).
    fold (run_mutations ms h1).
    destruct (replay_equiv (rev es1) c2 (TH.client h1) Hc2) as [Hc3 Hr3].
    rewrite Hr1 in Hc3, Hr3. simpl in Hc3, Hr3.
    exists (es1 ++ es2), (replay (rev es1) c2).1. split; [|split].
    + by rewrite Hl2, Hl1, fmap_app, app_assoc.
    + rewrite rev_app_distr, replay_app, Hr2.
      destruct (replay (rev es1) c2) as [c3 r3]. simpl in *. by subst r3.
    + by etrans.
Qed.

(** C1 (rollback is a true inverse).  From any state of the store and the
    coordinator, [begin], then any sequence of [set]/[delete] calls, then
    [rollback]: the rollback returns, the key-to-value mapping is the one
    before the [begin], every count reads as before the [begin] (an absent
    entry of the index reading as 0), and the log is the one before the
    [begin].  The entries recorded in between are undone in reverse
    insertion order, a creation entry by deleting its key and any other by
    setting the before-value. *)
Theorem rollback_inverse (h : TH.t) (ms : list mutation) :
  ∃ (es : list LE.t) (h' : TH.t),
    TH.transaction_log (run_mutations ms (TH.begin h))
    = TH.transaction_log h ++ Marker :: (Entry <$> es)
    ∧ TH.rollback (run_mutations ms (TH.begin h)) = (h', Return tt)
    ∧ replay (rev es) (TH.client (run_mutations ms (TH.begin h)))
      = (TH.client h', Return tt)
    ∧ DB.data (TH.client h') = DB.data (TH.client h)
    ∧ (∀ v, count_of (DB.counts (TH.client h')) v
            = count_of (DB.counts (TH.client h)) v)
    ∧ TH.transaction_log h' = TH.transaction_log h.
Proof.
  destruct (run_mutations_recorded ms (TH.begin h)) as (es & c' & Hl & Hr & Hc).
  { apply transaction_active_snoc. }
  simpl in Hl. rewrite <- app_assoc in Hl. simpl in Hl.
  exists es, (TH.mk c' (TH.transaction_log h)).
  destruct (run_mutations ms (TH.begin h)) as [c2 l2]. simpl in *. subst l2.
  split; [done|]. split; [by apply rollback_frame|].
  split; [done|]. destruct Hc as [Hd Hc]. by repeat split.
Qed.

(** ** The invariant of reachable states *)

Lemma undo_data_sound e c d' :
  undo_data e (DB.data c) = Some d' →
  ∃ c', undo_entry e c = (c', Return tt) ∧ DB.data c' = d'.
Proof.
  unfold undo_data, undo_entry.
  destruct (LE.is_create_operation e).
  - destruct (DB.data c !! LE.key e) as [v|] eqn:Hk; [|done].
    intros [= <-]. rewrite (delete_Some _ _ _ Hk). by eexists.
  - destruct (LE.old_value e) as [old|]; [|done].
    intros [= <-]. by eexists.
Qed.

Lemma undo_entry_consistent e c :
  store_consistent c → store_consistent (undo_entry e c).1.
Proof.
  intros Hc. unfold undo_entry. destruct (LE.is_create_operation e).
  - by apply delete_consistent.
  - destruct (LE.old_value e); [by apply set_consistent|done].
Qed.

Lemma replay_consistent es c :
  store_consistent c → store_consistent (replay es c).1.
Proof.
  revert c. induction es as [|e es IH]; intros c Hc; simpl; [done|].
  pose proof (undo_entry_consistent e c Hc) as Hc'.
  destruct (undo_entry e c) as [c' []]; [by apply IH|done].
Qed.

Lemma log_shape_app_l l1 l2 : log_shape (l1 ++ l2) → log_shape l1.
Proof. by destruct l1 as [|[] ?]. Qed.

Lemma log_shape_snoc l x : log_shape l → l ≠ [] → log_shape (l ++ [x]).
Proof. by destruct l as [|[] ?]. Qed.

Lemma log_shape_split l :
  log_shape l → l ≠ [] → ∃ pre es, l = pre ++ Marker :: (Entry <$> es).
Proof.
  induction l as [|x l IH] using rev_ind; [done|]. intros Hs _.
  destruct x as [|e].
  - by exists l, [].
  - destruct l as [|y l']; [done|].
    destruct IH as (pre & es & Hl); [by eapply log_shape_app_l|done|].
    exists pre, (es ++ [e]). rewrite Hl, fmap_app. simpl.
    by rewrite <- app_assoc.
Qed.

Lemma undoable_snoc_marker l d : undoable (l ++ [Marker]) d ↔ undoable l d.
Proof. unfold undoable. by rewrite rev_unit. Qed.

Lemma undoable_snoc_entry l e d :
  undoable (l ++ [Entry e]) d ↔ ∃ d', undo_data e d = Some d' ∧ undoable l d'.
Proof.
  unfold undoable. rewrite rev_unit. simpl.
  destruct (undo_data e d) as [d'|].
  - split; [by exists d'|]. by intros (? & [= <-] & ?).
  - split; [done|]. by intros (? & ? & ?).
Qed.

Lemma undoable_replay pre es c :
  undoable (pre ++ Marker :: (Entry <$> es)) (DB.data c) →
  ∃ c', replay (rev es) c = (c', Return tt) ∧ undoable pre (DB.data c').
Proof.
  revert c. induction es as [|e es IH] using rev_ind; intros c Hu.
  - exists c. split; [done|].
    by apply (undoable_snoc_marker pre).
  - rewrite fmap_app in Hu. simpl in Hu.
    replace (pre ++ Marker :: (Entry <$> es) ++ [Entry e])
      with ((pre ++ Marker :: (Entry <$> es)) ++ [Entry e]) in Hu
      by (by rewrite <- app_assoc).
    apply undoable_snoc_entry in Hu as (d' & Hd & Hu).
    destruct (undo_data_sound e c d' Hd) as (c1 & Hc1 & <-).
    destruct (IH c1 Hu) as (c' & Hr & Hu').
    exists c'. rewrite rev_unit. simpl. by rewrite Hc1.
Qed.

Lemma initial_invariant : invariant initial.
Proof. split; [apply init_consistent|done]. Qed.

(** In a state satisfying the invariant, [rollback] inside a transaction
    replays the top frame without failing and pops its marker. *)
Lemma rollback_active h :
  invariant h → TH.transaction_active h = true →
  ∃ pre es c',
    TH.transaction_log h = pre ++ Marker :: (Entry <$> es)
    ∧ replay (rev es) (TH.client h) = (c', Return tt)
    ∧ TH.apply_rollback h = (TH.mk c' (pre ++ [Marker]), Return tt)
    ∧ TH.rollback h = (TH.mk c' pre, Return tt)
    ∧ invariant (TH.mk c' pre).
Proof.
  intros (Hc & Hs & Hu) Hact. apply transaction_active_true in Hact.
  destruct (log_shape_split _ Hs Hact) as (pre & es & Hl).
  destruct h as [c l]. simpl in *. subst l.
  destruct (undoable_replay pre es c Hu) as (c' & Hr & Hu').
  exists pre, es, c'. split; [done|]. split; [done|].
  split; [by apply apply_rollback_frame|].
  split; [by apply rollback_frame|].
  split; [|split]; simpl.
  - pose proof (replay_consistent (rev es) c Hc) as Hc'. by rewrite Hr in Hc'.
  - by eapply log_shape_app_l.
  - done.
Qed.

Lemma rollback_inactive h :
  TH.transaction_active h = false →
  TH.rollback h = (h, Raise NoTransactionToRollback).
Proof. intros Hact. unfold TH.rollback. by rewrite Hact. Qed.

Lemma rollback_outcome h :
  invariant h →
  (TH.rollback h).2
  = (if TH.transaction_active h then Return tt
     else Raise NoTransactionToRollback).
Proof.
  intros Hinv. destruct (TH.transaction_active h) eqn:Hact.
  - destruct (rollback_active h Hinv Hact) as (?&?&?&_&_&_&Hr&_).
    by rewrite Hr.
  - by rewrite rollback_inactive.
Qed.

Lemma set_undo_data d k v :
  undo_data (LE.mk k (d !! k) (Some v)) (<[k := v]> d) = Some d.
Proof.
  unfold undo_data, LE.is_create_operation. simpl.
  destruct (d !! k) as [old|] eqn:Hk.
  - rewrite insert_insert_eq. f_equal. by apply insert_id.
  - rewrite lookup_insert_eq. f_equal. by apply delete_insert_id.
Qed.

Lemma delete_undo_data d k old :
  d !! k = Some old →
  undo_data (LE.mk k (Some old) None) (base.delete k d) = Some d.
Proof.
  intros Hk. unfold undo_data, LE.is_create_operation. simpl.
  f_equal. by apply insert_delete_id.
Qed.

Lemma count_consistent c v :
  store_consistent c → store_consistent (DB.count v c).1.
Proof.
  intros Hc w. unfold DB.count.
  destruct (count_of_getitem (DB.counts c) v w) as [Hw _].
  destruct (DB.counts_getitem (DB.counts c) v) as [cs n]. simpl in *.
  rewrite Hw. apply Hc.
Qed.

Lemma exec_invariant cmd h : invariant h → invariant (exec cmd h).1.
Proof.
  intros Hinv. pose proof Hinv as (Hc & Hs & Hu).
  destruct cmd as [| | |k v|k|k|v]; simpl.
  - (* begin *)
    split; [done|]. split; simpl.
    + destruct (TH.transaction_log h) as [|[] ?]; done.
    + by apply undoable_snoc_marker.
  - (* commit *)
    unfold TH.commit. destruct (TH.transaction_active h); simpl; [|done].
    by split.
  - (* rollback *)
    destruct (TH.transaction_active h) eqn:Hact.
    + destruct (rollback_active h Hinv Hact) as (?&?&?&_&_&_&Hr&Hinv').
      by rewrite Hr.
    + by rewrite rollback_inactive.
  - (* set *)
    unfold TH.set. destruct (TH.transaction_active h) eqn:Hact; simpl.
    + split; [by apply set_consistent|]. simpl.
      apply transaction_active_true in Hact. split.
      * by apply log_shape_snoc.
      * apply undoable_snoc_entry. exists (DB.data (TH.client h)).
        split; [apply set_undo_data|done].
    + split; [by apply set_consistent|]. simpl.
      assert (TH.transaction_log h = []) as ->; [|done].
      unfold TH.transaction_active in Hact.
      by destruct (TH.transaction_log h).
  - (* get *) done.
  - (* delete *)
    unfold TH.delete.
    destruct (DB.data (TH.client h) !! k) as [old|] eqn:Hk; [|done].
    rewrite (delete_Some _ _ _ Hk).
    pose proof (delete_consistent _ k Hc) as Hc'.
    rewrite (delete_Some _ _ _ Hk) in Hc'.
    destruct (TH.transaction_active h) eqn:Hact; simpl.
    + split; [done|]. simpl.
      apply transaction_active_true in Hact. split.
      * by apply log_shape_snoc.
      * apply undoable_snoc_entry. exists (DB.data (TH.client h)).
        split; [by apply delete_undo_data|done].
    + split; [done|]. simpl.
      assert (TH.transaction_log h = []) as ->; [|done].
      unfold TH.transaction_active in Hact.
      by destruct (TH.transaction_log h).
  - (* count *)
    unfold TH.count. pose proof (count_consistent _ v Hc) as Hc'.
    unfold DB.count in *.
    destruct (DB.counts_getitem (DB.counts (TH.client h)) v) as [cs n].
    by split.
Qed.

Lemma run_invariant cmds h : invariant h → invariant (run cmds h).
Proof.
  revert h. induction cmds as [|cmd cmds IH]; intros h Hinv; [done|].
  rewrite run_cons. by apply IH, exec_invariant.
Qed.

Lemma reachable_invariant cmds : invariant (run cmds initial).
Proof. apply run_invariant, initial_invariant. Qed.

(** ** Reading counts *)

Lemma db_count_returns c v : (DB.count v c).2 = count_of (DB.counts c) v.
Proof.
  unfold DB.count. destruct (count_of_getitem (DB.counts c) v v) as [_ Hn].
  by destruct (DB.counts_getitem (DB.counts c) v).
Qed.

Lemma count_returns h v :
  (TH.count v h).2 = count_of (DB.counts (TH.client h)) v.
Proof.
  unfold TH.count. rewrite <- db_count_returns.
  by destruct (DB.count v (TH.client h)).
Qed.

(** C2 (count consistency).  After any prefix of any sequence of coordinator
    calls on a fresh coordinator (transactions, commits and rollbacks
    included), [count(v)] is the number of keys currently mapped to [v], for
    every integer [v]; the same holds in every state a rollback replay
    passes through, whatever entries it undoes. *)
Theorem count_consistency (cmds : list command) (n : nat) (v : Z) :
  let h := run (take n cmds) initial in
  (TH.count v h).2 = Z.of_nat (keys_with_value (DB.data (TH.client h)) v)
  ∧ ∀ es : list LE.t,
      let c := (replay es (TH.client h)).1 in
      (DB.count v c).2 = Z.of_nat (keys_with_value (DB.data c) v).
Proof.
  intros h. destruct (reachable_invariant (take n cmds)) as (Hc & _).
  fold h in Hc. split.
  - rewrite count_returns. apply Hc.
  - intros es c. rewrite db_count_returns.
    by apply replay_consistent.
Qed.

(** C7 (the count index never goes negative).  In every state reached by
    coordinator calls, and in every state a rollback replay passes through,
    every count is at least 0; and one [set] moves a key between buckets in
    a single step: the bucket of the value the key held loses one and the
    bucket of the new value gains one. *)
Theorem counts_never_negative (cmds : list command) (v : Z) :
  let c := TH.client (run cmds initial) in
  0 ≤ count_of (DB.counts c) v
  ∧ (∀ es : list LE.t, 0 ≤ count_of (DB.counts (replay es c).1) v)
  ∧ ∀ (k : string) (x : Z),
      count_of (DB.counts (DB.set k x c)) v
      = count_of (DB.counts c) v
        - indicator (bool_decide (DB.data c !! k = Some v))
        + indicator (bool_decide (x = v)).
Proof.
  intros c. destruct (reachable_invariant cmds) as (Hc & _). fold c in Hc.
  split; [|split].
  - rewrite Hc. lia.
  - intros es. rewrite (replay_consistent es c Hc). lia.
  - intros k x. apply count_of_set.
Qed.

(** C3 (commit).  [commit] never changes the store; with an empty log it
    raises the no-transaction error and changes nothing; otherwise it
    returns with the whole log discarded, whatever the number of open
    frames, so that the depth is 0 and a following [rollback] raises. *)
Theorem commit_spec (h : TH.t) :
  TH.client (TH.commit h).1 = TH.client h
  ∧ match TH.transaction_log h with
    | [] =>
        ∃ e, TH.commit h = (h, Raise e) ∧ NoActiveTransactionError e
    | _ :: _ =>
        TH.commit h = (TH.mk (TH.client h) [], Return tt)
        ∧ depth (TH.commit h).1 = 0%nat
        ∧ ∃ e, TH.rollback (TH.commit h).1 = ((TH.commit h).1, Raise e)
               ∧ NoActiveTransactionError e
    end.
Proof.
  unfold TH.commit, TH.transaction_active.
  destruct (TH.transaction_log h) as [|x l] eqn:Hl; simpl.
  - split; [done|]. by exists NoTransactionToCommit.
  - split; [done|]. split; [done|]. split; [done|].
    by exists NoTransactionToRollback.
Qed.

(** C5 (delete of an unset key).  In any state, inside a transaction or
    not, [delete] raises exactly when the key is unset, with the not-found
    error and no change; when the key is set it returns, the key is removed
    and, inside a transaction, one entry holding the key and its value
    before the call has been appended to the log. *)
Theorem delete_spec (h : TH.t) (key : string) :
  (raised (TH.delete key h).2 = true ↔ DB.data (TH.client h) !! key = None)
  ∧ match DB.data (TH.client h) !! key with
    | None => ∃ e, TH.delete key h = (h, Raise e) ∧ NotFoundError e
    | Some old =>
        (TH.delete key h).2 = Return tt
        ∧ DB.data (TH.client (TH.delete key h).1)
          = base.delete key (DB.data (TH.client h))
        ∧ TH.transaction_log (TH.delete key h).1
          = if TH.transaction_active h
            then TH.transaction_log h ++ [Entry (LE.mk key (Some old) None)]
            else TH.transaction_log h
    end.
Proof.
  unfold TH.delete.
  destruct (DB.data (TH.client h) !! key) as [old|] eqn:Hk.
  - rewrite (delete_Some _ _ _ Hk).
    destruct (TH.transaction_active h); simpl; by repeat split.
  - simpl. split; [done|]. by exists (KeyNotFound key).
Qed.

(** C6 (failure atomicity).  In every state reached by coordinator calls,
    a call that raises leaves the store, the count index and the log as
    they were; and it is either a [delete] of an unset key raising the
    not-found error, or a [commit] or [rollback] with no transaction open
    raising the no-transaction error. *)
Theorem failure_atomicity (cmds : list command) (cmd : command) (e : exn) :
  (exec cmd (run cmds initial)).2 = Raise e →
  (exec cmd (run cmds initial)).1 = run cmds initial
  ∧ ((NotFoundError e
      ∧ ∃ k, cmd = DELETE k
             ∧ DB.data (TH.client (run cmds initial)) !! k = None)
     ∨ (NoActiveTransactionError e
        ∧ (cmd = COMMIT ∨ cmd = ROLLBACK)
        ∧ TH.transaction_log (run cmds initial) = [])).
Proof.
  pose proof (reachable_invariant cmds) as Hinv.
  destruct (run cmds initial) as [c l] eqn:Hh.
  destruct cmd as [| | |k v|k|k|v]; simpl; try done.
  - unfold TH.commit, TH.transaction_active. simpl.
    destruct l; simpl; [|done]. intros [= <-]. split; [done|]. right.
    split; [done|]. split; [by left|done].
  - destruct (TH.transaction_active (TH.mk c l)) eqn:Hact.
    + destruct (rollback_active _ Hinv Hact) as (?&?&?&_&_&_&Hr&_).
      by rewrite Hr.
    + unfold TH.rollback. rewrite Hact. simpl. intros [= <-].
      split; [done|]. right. split; [done|]. split; [by right|].
      unfold TH.transaction_active in Hact. simpl in *. by destruct l.
  - unfold TH.delete. simpl. destruct (DB.data c !! k) as [old|] eqn:Hk.
    + rewrite (delete_Some _ _ _ Hk).
      by destruct (TH.transaction_active (TH.mk c l)).
    + simpl. intros [= <-]. split; [done|]. left. split; [done|].
      by exists k.
  - unfold TH.count. by destruct (DB.count v (TH.client (TH.mk c l))).
Qed.

Lemma failure_atomicity_witness :
  (exec ROLLBACK (run [SET "a" 1] initial)).1 = run [SET "a" 1] initial
  ∧ ((NotFoundError NoTransactionToRollback
      ∧ ∃ k, ROLLBACK = DELETE k
             ∧ DB.data (TH.client (run [SET "a" 1] initial)) !! k = None)
     ∨ (NoActiveTransactionError NoTransactionToRollback
        ∧ (ROLLBACK = COMMIT ∨ ROLLBACK = ROLLBACK)
        ∧ TH.transaction_log (run [SET "a" 1] initial) = [])).
Proof.
  apply (failure_atomicity [SET "a" 1] ROLLBACK NoTransactionToRollback).
  reflexivity.
Defined.

(** C8, as the code has it ([count] has no visible effect).  [count]
    returns the recorded count, 0 for a value with no entry, and never
    raises; it leaves the key-to-value mapping and the log unchanged and
    every count reads as before.  The index itself is unchanged when it has
    an entry for the value; otherwise the read inserts an entry 0 for it. *)
Theorem count_read_only (h : TH.t) (v : Z) :
  (TH.count v h).2 = count_of (DB.counts (TH.client h)) v
  ∧ (exec (COUNT v) h).2 = Return (Some (count_of (DB.counts (TH.client h)) v))
  ∧ DB.data (TH.client (TH.count v h).1) = DB.data (TH.client h)
  ∧ TH.transaction_log (TH.count v h).1 = TH.transaction_log h
  ∧ (∀ w, count_of (DB.counts (TH.client (TH.count v h).1)) w
          = count_of (DB.counts (TH.client h)) w)
  ∧ DB.counts (TH.client (TH.count v h).1)
    = match DB.counts (TH.client h) !! v with
      | Some _ => DB.counts (TH.client h)
      | None => <[v := 0]> (DB.counts (TH.client h))
      end.
Proof.
  unfold exec, TH.count, DB.count, DB.counts_getitem, count_of.
  destruct (DB.counts (TH.client h) !! v) as [n|] eqn:Hv; simpl.
  - by repeat split.
  - repeat split; try done. intros w.
    destruct (decide (w = v)) as [->|Hne].
    + by rewrite lookup_insert_eq, Hv.
    + by rewrite lookup_insert_ne.
Qed.

(** C8, as stated, fails: on a fresh coordinator [count(5)] changes the
    count index from the empty dict to one holding the entry [5: 0]. *)
Lemma count_inserts_entry :
  DB.counts (TH.client (TH.count 5 initial).1) = {[ 5 := 0 ]}
  ∧ DB.counts (TH.client initial) = ∅
  ∧ (TH.count 5 initial).1 ≠ initial.
Proof.
  split; [reflexivity|]. split; [reflexivity|].
  intros H. apply (f_equal (λ h, DB.counts (TH.client h) !! 5)) in H.
  vm_compute in H. discriminate.
Qed.

(** ** The shape of the log *)

Lemma depth_pos_iff h :
  log_shape (TH.transaction_log h) →
  TH.transaction_log h ≠ [] ↔ (0 < depth h)%nat.
Proof.
  unfold depth. destruct (TH.transaction_log h) as [|[|e] l].
  - intros _. simpl. split; [done|lia].
  - intros _. rewrite filter_cons_True by done. simpl. split; [lia|done].
  - done.
Qed.

(** C9 (flat-log shape).  In every state reached by coordinator calls the
    log is empty or begins with a marker, every entry in it has a marker
    somewhere before it, the log is non-empty exactly when the depth (the
    number of markers) is positive, the loop of [__apply_rollback__] run
    inside a transaction stops at a marker without ever indexing an empty
    log, and [rollback] never raises [IndexError]. *)
Theorem flat_log_shape (cmds : list command) :
  let h := run cmds initial in
  (TH.transaction_log h = [] ∨ ∃ l, TH.transaction_log h = Marker :: l)
  ∧ (∀ (i : nat) (e : LE.t),
       TH.transaction_log h !! i = Some (Entry e) →
       ∃ j : nat, (j < i)%nat ∧ TH.transaction_log h !! j = Some Marker)
  ∧ (TH.transaction_log h ≠ [] ↔ (0 < depth h)%nat)
  ∧ (TH.transaction_active h = true →
     ∃ c' pre, TH.apply_rollback h = (TH.mk c' (pre ++ [Marker]), Return tt))
  ∧ (TH.rollback h).2 ≠ Raise IndexError.
Proof.
  intros h. pose proof (reachable_invariant cmds) as Hinv. fold h in Hinv.
  pose proof Hinv as (_ & Hs & _).
  split; [|split; [|split; [|split]]].
  - destruct (TH.transaction_log h) as [|[|e] l]; [by left|right; by exists l|done].
  - intros i e Hi. destruct (TH.transaction_log h) as [|[|e'] l]; [done| |done].
    destruct i as [|i]; [done|]. exists 0%nat. split; [lia|done].
  - by apply depth_pos_iff.
  - intros Hact.
    destruct (rollback_active h Hinv Hact) as (pre&?&c'&_&_&Ha&_).
    by exists c', pre.
  - rewrite (rollback_outcome h Hinv). by destruct (TH.transaction_active h).
Qed.

(** ** Rollback never fails inside a transaction *)

Lemma replay_creations_present es c c' :
  replay es c = (c', Return tt) → creations_present es c.
Proof.
  revert c. induction es as [|e es IH]; intros c Hr; simpl in *; [done|].
  destruct (undo_entry e c) as [c1 r1] eqn:Hu.
  destruct r1 as [[]|x]; [|done]. split; [|by apply IH].
  intros Hcr. unfold undo_entry in Hu. rewrite Hcr in Hu.
  destruct (DB.data c !! LE.key e) as [v|] eqn:Hk; [done|].
  by rewrite (delete_None _ _ Hk) in Hu.
Qed.

(** C10 (rollback replay never fails).  In every state reached by
    coordinator calls, [rollback] returns when a transaction is open and
    raises the no-transaction error otherwise, so it never raises the
    not-found error; when a transaction is open the entries of the top
    frame are undone in reverse order without a failure, each creation
    entry finding its key in the store when it is undone. *)
Theorem rollback_never_fails (cmds : list command) :
  let h := run cmds initial in
  (TH.rollback h).2
  = (if TH.transaction_active h then Return tt
     else Raise NoTransactionToRollback)
  ∧ (∀ e, (TH.rollback h).2 = Raise e → ¬ NotFoundError e)
  ∧ (TH.transaction_active h = true →
     ∃ pre es c',
       TH.transaction_log h = pre ++ Marker :: (Entry <$> es)
       ∧ replay (rev es) (TH.client h) = (c', Return tt)
       ∧ creations_present (rev es) (TH.client h)
       ∧ TH.rollback h = (TH.mk c' pre, Return tt)).
Proof.
  intros h. pose proof (reachable_invariant cmds) as Hinv. fold h in Hinv.
  pose proof (rollback_outcome h Hinv) as Hout.
  split; [done|]. split.
  - intros e. rewrite Hout. destruct (TH.transaction_active h); [done|].
    intros [= <-]. by intros [].
  - intros Hact.
    destruct (rollback_active h Hinv Hact) as (pre&es&c'&Hl&Hr&_&Hrb&_).
    exists pre, es, c'. split; [done|]. split; [done|].
    split; [by eapply replay_creations_present|done].
Qed.

(** ** Nested scopes *)

Lemma nest_snoc frames ms h :
  nest (frames ++ [ms]) h = run_mutations ms (TH.begin (nest frames h)).
Proof. unfold nest. by rewrite foldl_snoc. Qed.

Lemma rollbacks_nest frames h k :
  (k ≤ length frames)%nat →
  handler_equiv (rollbacks k (nest frames h))
                (nest (take (length frames - k) frames) h).
Proof.
  revert k. induction frames as [|ms frames IH] using rev_ind; intros k Hk.
  - simpl in Hk. by replace k with 0%nat by lia.
  - rewrite length_app in *. simpl in *. destruct k as [|k].
    + rewrite take_ge by (rewrite length_app; simpl; lia). done.
    + replace (length frames + 1 - S k)%nat with (length frames - k)%nat by lia.
      rewrite take_app_le by lia. simpl. rewrite nest_snoc.
      destruct (rollback_inverse (nest frames h) ms)
        as (es & h' & _ & Hr & _ & Hd & Hc & Hl).
      rewrite Hr. simpl. etrans; [|apply IH; lia].
      apply rollbacks_equiv. by repeat split.
Qed.

Lemma depth_begin h : depth (TH.begin h) = S (depth h).
Proof.
  unfold depth. simpl. rewrite filter_app, length_app.
  rewrite filter_cons_True by done. simpl. lia.
Qed.

Lemma depth_snoc_entry c c' l e :
  depth (TH.mk c (l ++ [Entry e])) = depth (TH.mk c' l).
Proof.
  unfold depth. simpl. rewrite filter_app, length_app.
  rewrite filter_cons_False by done. simpl. lia.
Qed.

Lemma depth_mutation m h : depth (exec (mutation_command m) h).1 = depth h.
Proof.
  destruct h as [c l]. destruct m as [k v|k]; simpl.
  - unfold TH.set. destruct (TH.transaction_active _); simpl; [|done].
    apply depth_snoc_entry.
  - unfold TH.delete. simpl. destruct (DB.data c !! k) as [old|] eqn:Hk; [|done].
    rewrite (delete_Some _ _ _ Hk).
    destruct (TH.transaction_active _); simpl; [|done].
    apply depth_snoc_entry.
Qed.

Lemma depth_run_mutations ms h : depth (run_mutations ms h) = depth h.
Proof.
  revert h. induction ms as [|m ms IH]; intros h; [done|].
  unfold run_mutations. rewrite fmap_cons, run_cons.
  fold (run_mutations ms (exec (mutation_command m) h).1).
  by rewrite IH, depth_mutation.
Qed.

Lemma depth_nest frames h : depth (nest frames h) = (depth h + length frames)%nat.
Proof.
  induction frames as [|ms frames IH] using rev_ind; [simpl; lia|].
  rewrite nest_snoc, depth_run_mutations, depth_begin, IH, length_app.
  simpl. lia.
Qed.

Lemma depth_equiv h1 h2 : handler_equiv h1 h2 → depth h1 = depth h2.
Proof. intros [_ Hl]. unfold depth. by rewrite Hl. Qed.

Lemma transaction_active_equiv h1 h2 :
  handler_equiv h1 h2 → TH.transaction_active h1 = TH.transaction_active h2.
Proof. intros [_ Hl]. unfold TH.transaction_active. by rewrite Hl. Qed.

Lemma nest_active frames h :
  frames ≠ [] → TH.transaction_active (nest frames h) = true.
Proof.
  destruct frames as [|ms frames _] using rev_ind; [done|]. intros _.
  rewrite nest_snoc.
  destruct (rollback_inverse (nest frames h) ms) as (es & _ & Hl & _).
  apply transaction_active_true. rewrite Hl.
  by destruct (TH.transaction_log (nest frames h)).
Qed.

(** C4 (nesting depth tracks begins).  Start with no transaction open and
    open [N] scopes, each [begin] followed by any [set]/[delete] calls.
    After [k ≤ N] rollbacks the coordinator is back in the state it was in
    just before the [(N-k+1)]-th [begin]: same mapping, same counts, and the
    very same log, so the outer frames and what they recorded are untouched.
    Its depth is [N - k]; a transaction is still open exactly when [k < N],
    so exactly [N] rollbacks return to the no-transaction state; each of
    these [N] rollbacks returns and a further one raises. *)
Theorem nesting_depth (h : TH.t) (frames : list (list mutation)) (k : nat) :
  TH.transaction_log h = [] →
  (k ≤ length frames)%nat →
  handler_equiv (rollbacks k (nest frames h))
                (nest (take (length frames - k) frames) h)
  ∧ depth (rollbacks k (nest frames h)) = (length frames - k)%nat
  ∧ (TH.transaction_active (rollbacks k (nest frames h)) = true
     ↔ (k < length frames)%nat)
  ∧ (TH.rollback (rollbacks k (nest frames h))).2
    = (if decide (k < length frames)%nat then Return tt
       else Raise NoTransactionToRollback).
Proof.
  intros Hlog Hk. pose proof (rollbacks_nest frames h k Hk) as Heq.
  assert (Hd0 : depth h = 0%nat) by (unfold depth; by rewrite Hlog).
  split; [done|]. split; [|split].
  - rewrite (depth_equiv _ _ Heq), depth_nest, Hd0, length_take. lia.
  - rewrite (transaction_active_equiv _ _ Heq). split.
    + intros Hact. destruct (decide (k < length frames)%nat); [done|].
      replace (length frames - k)%nat with 0%nat in Hact by lia.
      simpl in Hact. unfold TH.transaction_active in Hact.
      by rewrite Hlog in Hact.
    + intros Hlt. apply nest_active. intros Hnil.
      apply (f_equal length) in Hnil. rewrite length_take in Hnil.
      simpl in Hnil. lia.
  - destruct (rollback_equiv _ _ Heq) as [_ ->]. case_decide as Hlt.
    + destruct (take (length frames - k) frames) as [|ms fs _] eqn:Ht
        using rev_ind.
      { apply (f_equal length) in Ht. rewrite length_take in Ht.
        simpl in Ht. lia. }
      rewrite nest_snoc.
      destruct (rollback_inverse (nest fs h) ms) as (? & ? & _ & Hr & _).
      by rewrite Hr.
    + replace (length frames - k)%nat with 0%nat by lia. simpl.
      unfold TH.rollback, TH.transaction_active. by rewrite Hlog.
Qed.

Lemma nesting_depth_witness :
  handler_equiv
    (rollbacks 1 (nest [[MSet "a" 1]; [MSet "a" 2; MDelete "b"]] initial))
    (nest (take (2 - 1) [[MSet "a" 1]; [MSet "a" 2; MDelete "b"]]) initial)
  ∧ depth (rollbacks 1 (nest [[MSet "a" 1]; [MSet "a" 2; MDelete "b"]] initial))
    = (2 - 1)%nat
  ∧ (TH.transaction_active
       (rollbacks 1 (nest [[MSet "a" 1]; [MSet "a" 2; MDelete "b"]] initial))
     = true ↔ (1 < 2)%nat)
  ∧ (TH.rollback
       (rollbacks 1 (nest [[MSet "a" 1]; [MSet "a" 2; MDelete "b"]] initial))).2
    = (if decide (1 < 2)%nat then Return tt
       else Raise NoTransactionToRollback).
Proof.
  apply (nesting_depth initial [[MSet "a" 1]; [MSet "a" 2; MDelete "b"]] 1).
  - reflexivity.
  - simpl. lia.
Defined.

(** ** The scenarios of the test suite *)

Example scenario_without_transaction :
  let h := run [SET "a" 1; SET "b" 2; DELETE "b"; SET "a" 4] initial in
  DB.data (TH.client h) = {[ "a" := 4 ]}
  ∧ (TH.count 4 h).2 = 1
  ∧ (TH.count 6 h).2 = 0.
Proof. vm_compute. by repeat split. Qed.

Example scenario_rollback :
  let h := run [SET "a" 1; BEGIN; SET "a" 4; ROLLBACK] initial in
  DB.data (TH.client h) = {[ "a" := 1 ]} ∧ TH.transaction_log h = [].
Proof. vm_compute. by repeat split. Qed.

Example scenario_commit :
  let h := run [SET "a" 1; BEGIN; SET "a" 4; COMMIT] initial in
  DB.data (TH.client h) = {[ "a" := 4 ]}
  ∧ (exec ROLLBACK h).2 = Raise NoTransactionToRollback.
Proof. vm_compute. by repeat split. Qed.

Example scenario_nested :
  let h := run [BEGIN; SET "b" 2; BEGIN; SET "b" 6; ROLLBACK] initial in
  DB.data (TH.client h) = {[ "b" := 2 ]}
  ∧ (TH.count 6 h).2 = 0
  ∧ depth h = 1%nat.
Proof. vm_compute. by repeat split. Qed.

Example scenario_empty_transaction :
  exec ROLLBACK (run [BEGIN] initial) = (initial, Return None).
Proof. vm_compute. reflexivity. Qed.

Example scenario_rollback_without_begin :
  exec ROLLBACK initial = (initial, Raise NoTransactionToRollback).
Proof. vm_compute. reflexivity. Qed.

Example scenario_delete_unknown_key :
  exec (DELETE "a") initial = (initial, Raise (KeyNotFound "a")).
Proof. vm_compute. reflexivity. Qed.

(** * Further properties of the code *)

(** ** Reads after writes *)

(** X1: [get] after [set], in any state and inside or outside a
    transaction: the key just set reads as the new value, every other key
    reads as before. *)
Theorem get_after_set (h : TH.t) (k k' : string) (v : Z) :
  TH.get k' (TH.set k v h)
  = if decide (k' = k) then Some v else TH.get k' h.
Proof.
  unfold TH.get, DB.get, TH.set.
  destruct (TH.transaction_active h); simpl; case_decide as Hk; subst;
    by rewrite ?lookup_insert_eq, ?lookup_insert_ne.
Qed.

(** X2: [get] after [delete], in any state, whether the [delete] returned
    or raised: the key reads as unset, every other key reads as before. *)
Theorem get_after_delete (h : TH.t) (k k' : string) :
  TH.get k' (TH.delete k h).1
  = if decide (k' = k) then None else TH.get k' h.
Proof.
  unfold TH.get, DB.get, TH.delete.
  destruct (DB.data (TH.client h) !! k) as [old|] eqn:Hk.
  - rewrite (delete_Some _ _ _ Hk).
    destruct (TH.transaction_active h); simpl; case_decide as Hk'; subst;
      by rewrite ?lookup_delete_eq, ?lookup_delete_ne.
  - simpl. case_decide as Hk'; subst; by rewrite ?Hk.
Qed.

(** ** Composing store operations *)

(** X3: the last write wins, for the counts too: setting a key twice
    leaves the store as the second [set] alone would. *)
Theorem set_set_last_wins (c : DB.t) (k : string) (v1 v2 : Z) :
  client_equiv (DB.set k v2 (DB.set k v1 c)) (DB.set k v2 c).
Proof.
  split.
  - rewrite !data_set. apply insert_insert_eq.
  - intros w. rewrite !count_of_set, data_set, lookup_insert_eq.
    repeat case_bool_decide; simpl; congruence || lia.
Qed.

(** X4: setting a key that was unset and deleting it again gives back the
    store, up to explicit zero counts: the delete returns, the mapping is
    the old one and every count reads as before. *)
Theorem set_then_delete (c : DB.t) (k : string) (v : Z) :
  DB.data c !! k = None →
  (DB.delete k (DB.set k v c)).2 = Return tt
  ∧ client_equiv (DB.delete k (DB.set k v c)).1 c.
Proof.
  intros Hk. destruct (set_undo c k v) as (c' & Hu & Hc).
  unfold undo_entry, LE.is_create_operation in Hu. simpl in Hu.
  rewrite Hk in Hu. by rewrite Hu.
Qed.

Lemma set_then_delete_witness :
  (DB.delete "a" (DB.set "a" 7 DB.init)).2 = Return tt
  ∧ client_equiv (DB.delete "a" (DB.set "a" 7 DB.init)).1 DB.init.
Proof. apply (set_then_delete DB.init "a" 7). reflexivity. Defined.

(** X5: deleting a key and setting it back to the value it held gives
    back the store, up to explicit zero counts. *)
Theorem delete_then_set (c : DB.t) (k : string) (old : Z) :
  DB.data c !! k = Some old →
  (DB.delete k c).2 = Return tt
  ∧ client_equiv (DB.set k old (DB.delete k c).1) c.
Proof.
  intros Hk. destruct (delete_undo c k old Hk) as (c' & Hu & Hc).
  unfold undo_entry, LE.is_create_operation in Hu. simpl in Hu.
  injection Hu as <-. split; [|done]. by rewrite (delete_Some _ _ _ Hk).
Qed.

Lemma delete_then_set_witness :
  (DB.delete "a" (DB.set "a" 7 DB.init)).2 = Return tt
  ∧ client_equiv
      (DB.set "a" 7 (DB.delete "a" (DB.set "a" 7 DB.init)).1)
      (DB.set "a" 7 DB.init).
Proof. apply (delete_then_set (DB.set "a" 7 DB.init) "a" 7). reflexivity. Defined.

(** ** What the coordinator does to the store *)

Lemma apply_rollback_replays l c :
  ∃ es, TH.client (TH.apply_rollback (TH.mk c l)).1 = (replay es c).1.
Proof.
  revert c. induction l as [|x l IH] using rev_ind; intros c.
  - by exists [].
  - destruct x as [|e].
    + rewrite apply_rollback_marker. by exists [].
    + rewrite apply_rollback_entry.
      destruct (undo_entry e c) as [c1 r1] eqn:Hu. destruct r1 as [[]|x].
      * destruct (IH c1) as (es & Hes). exists (e :: es). simpl.
        by rewrite Hu.
      * exists [e]. simpl. by rewrite Hu.
Qed.

Lemma rollback_replays h :
  ∃ es, TH.client (TH.rollback h).1 = (replay es (TH.client h)).1.
Proof.
  unfold TH.rollback. destruct (TH.transaction_active h); simpl.
  - destruct h as [c l]. destruct (apply_rollback_replays l c) as (es & Hes).
    exists es. destruct (TH.apply_rollback (TH.mk c l)) as [h1 r1].
    simpl in *. destruct r1; [|done].
    by destruct (list_pop (TH.transaction_log h1)) as [[? ?]|].
  - by exists [].
Qed.

Section store_invariant.
(** A property of the store kept by each of its three operations is kept
    by every call on the coordinator, rollback replay included, in any
    state. *)
Variable P : DB.t → Prop.
Hypothesis P_set : ∀ k v c, P c → P (DB.set k v c).
Hypothesis P_delete : ∀ k c, P c → P (DB.delete k c).1.
Hypothesis P_count : ∀ v c, P c → P (DB.count v c).1.

Lemma replay_store_invariant es c : P c → P (replay es c).1.
Proof.
  revert c. induction es as [|e es IH]; intros c Hc; simpl; [done|].
  assert (Hc' : P (undo_entry e c).1).
  { unfold undo_entry. destruct (LE.is_create_operation e); [by apply P_delete|].
    destruct (LE.old_value e); [by apply P_set|done]. }
  destruct (undo_entry e c) as [c' []]; [by apply IH|done].
Qed.

Lemma exec_store_invariant cmd h : P (TH.client h) → P (TH.client (exec cmd h).1).
Proof.
  intros Hc. destruct cmd as [| | |k v|k|k|v]; simpl; try done.
  - unfold TH.commit. by destruct (TH.transaction_active h).
  - destruct (rollback_replays h) as (es & Hes).
    destruct (TH.rollback h) as [h' r']. simpl in *. rewrite Hes.
    by apply replay_store_invariant.
  - unfold TH.set. destruct (TH.transaction_active h); by apply P_set.
  - unfold TH.delete. pose proof (P_delete k _ Hc) as Hd.
    destruct (DB.data (TH.client h) !! k); [|done].
    destruct (TH.transaction_active h); simpl;
      by destruct (DB.delete k (TH.client h)).
  - unfold TH.count. pose proof (P_count v _ Hc) as Hd.
    by destruct (DB.count v (TH.client h)).
Qed.

Lemma run_store_invariant cmds h : P (TH.client h) → P (TH.client (run cmds h)).
Proof.
  revert h. induction cmds as [|cmd cmds IH]; intros h Hc; [done|].
  rewrite run_cons. by apply IH, exec_store_invariant.
Qed.

End store_invariant.

(** ** The counts add up *)

Lemma total_count_insert cs v n :
  total_count (<[v := n]> cs) = total_count cs - count_of cs v + n.
Proof.
  unfold total_count, count_of.
  destruct (cs !! v) as [m|] eqn:Hv; simpl.
  - rewrite <- insert_delete_eq.
    rewrite map_fold_insert_L; [|intros; lia|apply lookup_delete_eq].
    rewrite (map_fold_delete_L _ _ v m cs); [lia|intros; lia|done].
  - rewrite map_fold_insert_L; [lia|intros; lia|done].
Qed.

Lemma total_count_iadd cs v d :
  total_count (DB.counts_iadd cs v d) = total_count cs + d.
Proof.
  unfold DB.counts_iadd, DB.counts_getitem.
  destruct (cs !! v) as [n|] eqn:Hv.
  - rewrite total_count_insert. unfold count_of. rewrite Hv. simpl. lia.
  - rewrite insert_insert_eq, total_count_insert. unfold count_of.
    rewrite Hv. simpl. lia.
Qed.

Lemma total_count_getitem cs v :
  total_count (DB.counts_getitem cs v).1 = total_count cs.
Proof.
  unfold DB.counts_getitem. destruct (cs !! v) as [n|] eqn:Hv; simpl; [done|].
  rewrite total_count_insert. unfold count_of. rewrite Hv. simpl. lia.
Qed.

Lemma counts_add_up_set k v c : counts_add_up c → counts_add_up (DB.set k v c).
Proof.
  unfold counts_add_up, DB.set. simpl. intros Hc.
  rewrite total_count_iadd, map_size_insert.
  destruct (DB.data c !! k) as [old|] eqn:Hk; simpl.
  - rewrite total_count_iadd. lia.
  - lia.
Qed.

Lemma counts_add_up_delete k c :
  counts_add_up c → counts_add_up (DB.delete k c).1.
Proof.
  unfold counts_add_up. intros Hc.
  destruct (DB.data c !! k) as [old|] eqn:Hk.
  - rewrite (delete_Some _ _ _ Hk). simpl.
    rewrite total_count_iadd. rewrite (map_size_delete_S _ k old Hk) in Hc. lia.
  - by rewrite (delete_None _ _ Hk).
Qed.

Lemma counts_add_up_count v c :
  counts_add_up c → counts_add_up (DB.count v c).1.
Proof.
  unfold counts_add_up, DB.count. intros Hc.
  pose proof (total_count_getitem (DB.counts c) v) as Ht.
  destruct (DB.counts_getitem (DB.counts c) v) as [cs n]. simpl in *.
  by rewrite Ht.
Qed.

(** X6: after any sequence of calls on a fresh coordinator, the counts of
    the index add up to the number of keys of the store. *)
Theorem counts_sum_to_size (cmds : list command) :
  total_count (DB.counts (TH.client (run cmds initial)))
  = Z.of_nat (size (DB.data (TH.client (run cmds initial)))).
Proof.
  apply (run_store_invariant counts_add_up).
  - apply counts_add_up_set.
  - apply counts_add_up_delete.
  - apply counts_add_up_count.
  - reflexivity.
Qed.

(** X7: after any sequence of calls on a fresh coordinator, [count(v)] is
    positive exactly when [get] returns [v] for some key. *)
Theorem count_positive_iff (cmds : list command) (v : Z) :
  0 < (TH.count v (run cmds initial)).2
  ↔ ∃ k, TH.get k (run cmds initial) = Some v.
Proof.
  destruct (reachable_invariant cmds) as (Hc & _).
  rewrite count_returns, Hc. unfold keys_with_value, TH.get, DB.get.
  set (d := DB.data (TH.client (run cmds initial))).
  split.
  - intros Hpos.
    destruct (map_choose (filter (λ kv : string * Z, kv.2 = v) d))
      as (k & x & Hk).
    { apply map_size_non_empty_iff. lia. }
    apply map_lookup_filter_Some in Hk as [Hk Hx]. simpl in Hx. subst x.
    exists k. by rewrite Hk.
  - intros (k & Hk). destruct (d !! k) as [x|] eqn:Hd; [|done].
    injection Hk as ->.
    assert (size (filter (λ kv : string * Z, kv.2 = v) d) ≠ 0%nat); [|lia].
    apply map_size_non_empty_iff. intros Hemp.
    assert (Hf : filter (λ kv : string * Z, kv.2 = v) d !! k = Some v)
      by (by apply map_lookup_filter_Some).
    by rewrite Hemp in Hf.
Qed.

(** ** The depth of nesting *)

Lemma depth_frame c pre es :
  depth (TH.mk c (pre ++ Marker :: (Entry <$> es)))
  = S (length (filter (λ i, is_marker i = true) pre)).
Proof.
  unfold depth. simpl. rewrite filter_app, length_app.
  rewrite filter_cons_True by done. simpl.
  assert (filter (λ i, is_marker i = true) (Entry <$> es) = []) as ->.
  { induction es as [|e es IH]; [done|].
    rewrite fmap_cons, filter_cons_False by done. apply IH. }
  simpl. lia.
Qed.

(** X8: the depth is a counter.  After any sequence of calls on a fresh
    coordinator, [begin] adds one to the depth, [commit] sets it to 0,
    [rollback] takes one off (and leaves 0 at 0, where it raises), and no
    other call changes it. *)
Theorem depth_step (cmds : list command) (cmd : command) :
  depth (exec cmd (run cmds initial)).1
  = match cmd with
    | BEGIN => S (depth (run cmds initial))
    | COMMIT => 0%nat
    | ROLLBACK => pred (depth (run cmds initial))
    | SET _ _ | GET _ | DELETE _ | COUNT _ => depth (run cmds initial)
    end.
Proof.
  pose proof (reachable_invariant cmds) as Hinv.
  set (h := run cmds initial) in *. clearbody h.
  destruct cmd as [| | |k v|k|k|v].
  - apply depth_begin.
  - simpl. unfold TH.commit, TH.transaction_active, depth.
    destruct (TH.transaction_log h) eqn:Hl; simpl; by rewrite ?Hl.
  - simpl. destruct (TH.transaction_active h) eqn:Hact.
    + destruct (rollback_active h Hinv Hact) as (pre&es&c'&Hl&_&_&Hr&_).
      rewrite Hr. simpl. destruct h as [c l]. simpl in Hl. subst l.
      by rewrite depth_frame.
    + rewrite (rollback_inactive h Hact). simpl.
      unfold TH.transaction_active, depth in *.
      destruct (TH.transaction_log h) eqn:Hl; by rewrite ?Hl.
  - apply (depth_mutation (MSet k v)).
  - done.
  - apply (depth_mutation (MDelete k)).
  - simpl. unfold TH.count, depth.
    by destruct (DB.count v (TH.client h)).
Qed.

(** X9: in any state, a [begin] immediately followed by a [rollback] is
    the identity: the rollback returns and the coordinator is exactly as
    before, log and explicit entries of the count index included. *)
Theorem rollback_begin (h : TH.t) :
  TH.rollback (TH.begin h) = (h, Return tt).
Proof.
  destruct h as [c l].
  apply (rollback_frame l [] c c). reflexivity.
Qed.

(** ** What the log holds *)

Lemma Forall_entry_recorded_prefix (l1 l2 : list log_item) :
  Forall entry_recorded (l1 ++ l2) → Forall entry_recorded l1.
Proof. intros H. by apply Forall_app in H as [? _]. Qed.

Lemma exec_entry_recorded cmd h :
  invariant h →
  Forall entry_recorded (TH.transaction_log h) →
  Forall entry_recorded (TH.transaction_log (exec cmd h).1).
Proof.
  intros Hinv Hall. destruct cmd as [| | |k v|k|k|v]; simpl; try done.
  - apply Forall_app. split; [done|]. by apply Forall_singleton.
  - unfold TH.commit. by destruct (TH.transaction_active h).
  - destruct (TH.transaction_active h) eqn:Hact.
    + destruct (rollback_active h Hinv Hact) as (pre&es&c'&Hl&_&_&Hr&_).
      rewrite Hr. simpl. rewrite Hl in Hall.
      by eapply Forall_entry_recorded_prefix.
    + by rewrite (rollback_inactive h Hact).
  - unfold TH.set. destruct (TH.transaction_active h); simpl; [|done].
    apply Forall_app. split; [done|]. apply Forall_singleton. simpl.
    right. by eexists.
  - unfold TH.delete. destruct (DB.data (TH.client h) !! k) as [old|] eqn:Hk;
      [|done].
    rewrite (delete_Some _ _ _ Hk).
    destruct (TH.transaction_active h); simpl; [|done].
    apply Forall_app. split; [done|]. apply Forall_singleton. simpl.
    left. by eexists.
  - unfold TH.count. by destruct (DB.count v (TH.client h)).
Qed.

(** X10: after any sequence of calls on a fresh coordinator, every entry
    of the log holds a before-value or an after-value, so an entry is a
    creation exactly when it has no before-value, and the rollback loop
    never hands [None] to the store's [set]. *)
Theorem log_entries_recorded (cmds : list command) :
  Forall entry_recorded (TH.transaction_log (run cmds initial))
  ∧ ∀ e, Entry e ∈ TH.transaction_log (run cmds initial) →
         (LE.is_create_operation e = true ↔ LE.old_value e = None).
Proof.
  assert (Hall : Forall entry_recorded (TH.transaction_log (run cmds initial))).
  { induction cmds as [|cmd cmds IH] using rev_ind; [by constructor|].
    rewrite run_app. simpl.
    apply exec_entry_recorded; [apply reachable_invariant|done]. }
  split; [done|]. intros e He.
  rewrite Forall_forall in Hall. specialize (Hall _ He). simpl in Hall.
  unfold LE.is_create_operation.
  destruct (LE.old_value e), (LE.new_value e), Hall as [[? ?]|[? ?]];
    naive_solver.
Qed.

(** ** Writes are never deferred *)

Lemma exec_store_effect cmd h :
  cmd ≠ ROLLBACK → TH.client (exec cmd h).1 = store_effect cmd (TH.client h).
Proof.
  intros Hcmd. destruct cmd as [| | |k v|k|k|v]; simpl; try done.
  - unfold TH.commit. by destruct (TH.transaction_active h).
  - unfold TH.set. by destruct (TH.transaction_active h).
  - unfold TH.delete. destruct (DB.data (TH.client h) !! k) as [old|] eqn:Hk.
    + rewrite (delete_Some _ _ _ Hk). by destruct (TH.transaction_active h).
    + by rewrite (delete_None _ _ Hk).
  - unfold TH.count. by destruct (DB.count v (TH.client h)).
Qed.

(** X11: transactions never shadow or defer writes.  In any state, after
    a sequence of calls without a [rollback], the store is exactly the one
    obtained by making the calls' [set], [delete] and [count] directly on
    the store, whatever [begin]s and [commit]s lie in between. *)
Theorem writes_go_through (cmds : list command) (h : TH.t) :
  ROLLBACK ∉ cmds →
  TH.client (run cmds h)
  = foldl (λ c cmd, store_effect cmd c) (TH.client h) cmds.
Proof.
  revert h. induction cmds as [|cmd cmds IH]; intros h Hno; [done|].
  rewrite run_cons. simpl. rewrite IH.
  - rewrite exec_store_effect; [done|]. intros ->. apply Hno. by left.
  - intros Hin. apply Hno. by right.
Qed.

Lemma writes_go_through_witness :
  TH.client (run [SET "a" 1; BEGIN; SET "a" 4; DELETE "b"; COMMIT] initial)
  = foldl (λ c cmd, store_effect cmd c) (TH.client initial)
      [SET "a" 1; BEGIN; SET "a" 4; DELETE "b"; COMMIT].
Proof.
  apply (writes_go_through
           [SET "a" 1; BEGIN; SET "a" 4; DELETE "b"; COMMIT] initial).
  intros Hin. repeat (apply elem_of_cons in Hin as [Hin|Hin]; [discriminate|]).
  by apply elem_of_nil in Hin.
Defined.

(** X12: outside a transaction nothing is recorded.  From a state with an
    empty log, calls other than [begin] leave the log empty, so that what
    they changed cannot be rolled back: a [rollback] after them raises. *)
Theorem nothing_recorded_outside (cmds : list command) (h : TH.t) :
  TH.transaction_log h = [] →
  BEGIN ∉ cmds →
  TH.transaction_log (run cmds h) = []
  ∧ TH.rollback (run cmds h) = (run cmds h, Raise NoTransactionToRollback).
Proof.
  intros Hlog Hno.
  assert (Hl : TH.transaction_log (run cmds h) = []).
  { revert h Hlog. induction cmds as [|cmd cmds IH]; intros h Hlog; [done|].
    rewrite run_cons. apply IH; [intros Hin; apply Hno; by right|].
    assert (Hact : TH.transaction_active h = false)
      by (unfold TH.transaction_active; by rewrite Hlog).
    destruct cmd as [| | |k v|k|k|v]; simpl.
    - exfalso. apply Hno. by left.
    - unfold TH.commit. by rewrite Hact.
    - by rewrite (rollback_inactive h Hact).
    - unfold TH.set. by rewrite Hact.
    - done.
    - unfold TH.delete. destruct (DB.data (TH.client h) !! k); [|done].
      rewrite Hact. simpl. by destruct (DB.delete k (TH.client h)).
    - unfold TH.count. by destruct (DB.count v (TH.client h)). }
  split; [done|]. apply rollback_inactive.
  unfold TH.transaction_active. by rewrite Hl.
Qed.

Lemma nothing_recorded_outside_witness :
  TH.transaction_log (run [SET "a" 1; DELETE "a"; COMMIT] initial) = []
  ∧ TH.rollback (run [SET "a" 1; DELETE "a"; COMMIT] initial)
    = (run [SET "a" 1; DELETE "a"; COMMIT] initial,
       Raise NoTransactionToRollback).
Proof.
  apply (nothing_recorded_outside [SET "a" 1; DELETE "a"; COMMIT] initial).
  - reflexivity.
  - intros Hin.
    repeat (apply elem_of_cons in Hin as [Hin|Hin]; [discriminate|]).
    by apply elem_of_nil in Hin.
Defined.

(** ** A rollback only touches the innermost frame *)



(** ** Rolling back a scope with scopes nested in it *)

Lemma entries_of_app s1 s2 : entries_of (s1 ++ s2) = entries_of s1 ++ entries_of s2.
Proof. apply omap_app. Qed.

Lemma entries_of_entries es : entries_of (Entry <$> es) = es.
Proof.
  induction es as [|e es IH]; [done|].
  rewrite fmap_cons.
  change (entries_of (Entry e :: (Entry <$> es)))
    with (e :: entries_of (Entry <$> es)).
  by rewrite IH.
Qed.

Lemma markers_app s1 s2 : markers (s1 ++ s2) = (markers s1 + markers s2)%nat.
Proof. unfold markers. by rewrite filter_app, length_app. Qed.

Lemma markers_entries es : markers (Entry <$> es) = 0%nat.
Proof.
  unfold markers. induction es as [|e es IH]; [done|].
  by rewrite fmap_cons, filter_cons_False.
Qed.

Lemma markers_cons_marker s : markers (Marker :: s) = S (markers s).
Proof. unfold markers. by rewrite filter_cons_True. Qed.

Lemma markers_zero s : markers s = 0%nat → s = Entry <$> entries_of s.
Proof.
  induction s as [|[|e] s IH]; [done| |].
  - by rewrite markers_cons_marker.
  - unfold markers in *. rewrite filter_cons_False by done.
    intros Hs.
    change (entries_of (Entry e :: s)) with (e :: entries_of s).
    rewrite fmap_cons. f_equal. by apply IH.
Qed.

Lemma markers_split s :
  (0 < markers s)%nat → ∃ s1 es, s = s1 ++ Marker :: (Entry <$> es).
Proof.
  induction s as [|x s IH] using rev_ind.
  - unfold markers. simpl. lia.
  - destruct x as [|e]; [by exists s, []|].
    rewrite markers_app. replace (markers [Entry e]) with 0%nat by done.
    intros Hs. destruct IH as (s1 & es & ->); [lia|].
    exists s1, (es ++ [e]). rewrite fmap_app. simpl.
    by rewrite <- app_assoc.
Qed.

Lemma count_equiv v c : client_equiv (DB.count v c).1 c.
Proof.
  unfold DB.count.
  pose proof (λ w, proj1 (count_of_getitem (DB.counts c) v w)) as Hw.
  destruct (DB.counts_getitem (DB.counts c) v) as [cs n]. by split.
Qed.

Lemma undoes_equiv s c1 c c0 : client_equiv c1 c → undoes s c c0 → undoes s c1 c0.
Proof.
  intros Hc (c' & Hr & Hc').
  destruct (replay_equiv (rev (entries_of s)) c1 c Hc) as [He Ho].
  rewrite Hr in He, Ho. simpl in *.
  exists (replay (rev (entries_of s)) c1).1. split; [|by etrans].
  destruct (replay (rev (entries_of s)) c1). simpl in *. by subst.
Qed.

Lemma undoes_snoc_entries s es c2 c1 c c0 :
  replay (rev es) c2 = (c1, Return tt) → client_equiv c1 c →
  undoes s c c0 → undoes (s ++ (Entry <$> es)) c2 c0.
Proof.
  intros Hr Hc Hu. destruct (undoes_equiv s c1 c c0 Hc Hu) as (c' & Hr' & Hc').
  exists c'. split; [|done].
  by rewrite entries_of_app, entries_of_entries, rev_app_distr, replay_app, Hr.
Qed.

Lemma run_nested cmds :
  ∀ d d' log0 s c c0,
    nesting d cmds = Some d' → markers s = d → undoes s c c0 →
    ∃ s2 c2,
      run cmds (TH.mk c (log0 ++ Marker :: s)) = TH.mk c2 (log0 ++ Marker :: s2)
      ∧ markers s2 = d' ∧ undoes s2 c2 c0.
Proof.
  induction cmds as [|cmd cmds IH]; intros d d' log0 s c c0 Hn Hm Hu.
  - injection Hn as <-. by exists s, c.
  - rewrite run_cons.
    assert (Hact : TH.transaction_active (TH.mk c (log0 ++ Marker :: s)) = true)
      by (apply transaction_active_true; simpl; by destruct log0).
    destruct cmd as [| | |k v|k|k|v]; simpl in Hn.
    + (* begin *)
      simpl. unfold TH.begin. simpl.
      replace ((log0 ++ Marker :: s) ++ [Marker])
        with (log0 ++ Marker :: (s ++ [Marker])) by (by rewrite <- app_assoc).
      apply (IH (S d) d'); [done| |].
      * rewrite markers_app, Hm. unfold markers. simpl. lia.
      * destruct Hu as (c' & Hr & Hc). exists c'. split; [|done].
        rewrite entries_of_app. simpl. by rewrite app_nil_r.
    + done.
    + (* rollback *)
      destruct d as [|d]; [done|].
      destruct (markers_split s) as (s1 & es & ->); [lia|].
      destruct Hu as (c' & Hr & Hc).
      rewrite entries_of_app in Hr. simpl in Hr.
      rewrite entries_of_entries, rev_app_distr, replay_app in Hr.
      destruct (replay (rev es) c) as [c1 [[]|x]] eqn:Hes; [|done].
      simpl.
      replace (log0 ++ Marker :: s1 ++ Marker :: (Entry <$> es))
        with ((log0 ++ Marker :: s1) ++ Marker :: (Entry <$> es))
        by (by rewrite <- app_assoc).
      rewrite (rollback_frame _ _ _ _ Hes). simpl.
      apply (IH d d'); [done| |by exists c'].
      rewrite markers_app, markers_cons_marker, markers_entries in Hm. lia.
    + (* set *)
      destruct (mutation_recorded (MSet k v) _ Hact) as (es & c1 & Hl & Hr & Hc).
      simpl in Hl, Hr, Hc |- *.
      destruct (TH.set k v _) as [c2 l2]. simpl in *. subst l2.
      replace ((log0 ++ Marker :: s) ++ (Entry <$> es))
        with (log0 ++ Marker :: (s ++ (Entry <$> es)))
        by (by rewrite <- app_assoc).
      apply (IH d d'); [done| |by eapply undoes_snoc_entries].
      by rewrite markers_app, markers_entries, Hm, Nat.add_0_r.
    + (* get *)
      simpl. by apply (IH d d').
    + (* delete *)
      destruct (mutation_recorded (MDelete k) _ Hact)
        as (es & c1 & Hl & Hr & Hc).
      simpl in Hl, Hr, Hc |- *.
      destruct (TH.delete k _) as [[c2 l2] r2]. simpl in *. subst l2.
      replace ((log0 ++ Marker :: s) ++ (Entry <$> es))
        with (log0 ++ Marker :: (s ++ (Entry <$> es)))
        by (by rewrite <- app_assoc).
      apply (IH d d'); [done| |by eapply undoes_snoc_entries].
      by rewrite markers_app, markers_entries, Hm, Nat.add_0_r.
    + (* count *)
      simpl. unfold TH.count. simpl.
      pose proof (count_equiv v c) as Hc.
      destruct (DB.count v c) as [c2 n]. simpl in *.
      apply (IH d d'); [done|done|by eapply undoes_equiv].
Qed.

(** X14: rollback undoes a whole scope, scopes nested in it included.  In
    any state, after [begin] and a sequence of calls in which every
    [rollback] closes a [begin] of the sequence, every such [begin] is
    closed, and there is no [commit], a final [rollback] returns and gives
    back the mapping, the counts and the log of before the [begin]. *)
Theorem nested_rollback_inverse (cmds : list command) (h : TH.t) :
  nesting 0 cmds = Some 0%nat →
  ∃ h', TH.rollback (run cmds (TH.begin h)) = (h', Return tt)
        ∧ handler_equiv h' h.
Proof.
  intros Hn. destruct h as [c l]. unfold TH.begin. simpl.
  destruct (run_nested cmds 0 0 l [] c c Hn) as (s2 & c2 & Hrun & Hm & Hu).
  { done. }
  { by exists c. }
  rewrite Hrun. destruct Hu as (c' & Hr & Hc).
  rewrite (markers_zero s2 Hm).
  rewrite (rollback_frame _ _ _ _ Hr). exists (TH.mk c' l). by split.
Qed.

Lemma nested_rollback_inverse_witness :
  ∃ h',
    TH.rollback
      (run [SET "a" 1; BEGIN; SET "a" 2; DELETE "a"; ROLLBACK; COUNT 1; GET "a"]
         (TH.begin initial))
    = (h', Return tt)
    ∧ handler_equiv h' initial.
Proof.
  apply (nested_rollback_inverse
           [SET "a" 1; BEGIN; SET "a" 2; DELETE "a"; ROLLBACK; COUNT 1; GET "a"]
           initial).
  reflexivity.
Defined.

(** ** Independent keys *)

(** X15: writes to different keys commute, for the counts too: two [set]s
    on distinct keys leave equivalent stores whichever comes first. *)
Theorem set_set_commute (c : DB.t) (k1 k2 : string) (v1 v2 : Z) :
  k1 ≠ k2 →
  client_equiv (DB.set k1 v1 (DB.set k2 v2 c)) (DB.set k2 v2 (DB.set k1 v1 c)).
Proof.
  intros Hne. split.
  - rewrite !data_set. by apply insert_insert_ne.
  - intros w. rewrite !count_of_set, !data_set.
    rewrite !lookup_insert_ne by done. lia.
Qed.

Lemma set_set_commute_witness :
  client_equiv (DB.set "a" 1 (DB.set "b" 2 DB.init))
               (DB.set "b" 2 (DB.set "a" 1 DB.init)).
Proof. apply (set_set_commute DB.init "a" "b" 1 2). discriminate. Defined.
